(** * fs9721-utils: the FS9721 packet parser of [docs/example_parser.c]

    A shallow embedding of [reverse], [parse_packet], [lookup_digit] and
    [print_bytes], and the properties of the decoding contract checked
    against them.

    Conventions.  A [uint8_t] or an [int] is a [Z]; a value assigned to a
    [uint8_t] is wrapped with [u8].  The heap object that [parse_packet]
    builds is a byte memory addressed by the offset from the pointer that
    [calloc] returned, together with the size of the allocated block and a
    log of the accesses made, in program order. *)

From Equations Require Import Equations.
From Stdlib Require Import ZArith List Bool String Ascii Lia.
Import ListNotations.

Local Open Scope Z_scope.

(** ** Constants *)

Definition PACKET_LENGTH : Z := 14.
Definition DATA_LENGTH : Z := 7.

(** Conversion to [uint8_t]. *)
Definition u8 (z : Z) : Z := z mod 256.

(** ** [reverse] *)

(** The loop [for (in >>= 1; in; in >>= 1) { r <<= 1; r |= in & 1; cnt--; }]
    entered with the first shift already done.  [in] is unsigned, so the
    test [in] (non-zero) is [0 < in]; the recursion is on the value of [in],
    which every shift makes smaller.  Returns [r] and [cnt] at the exit. *)
Equations? reverse_loop (inv r cnt : Z) : Z * Z by wf (Z.to_nat inv) lt :=
  reverse_loop inv r cnt with Z_gt_le_dec inv 0 => {
    | left _ :=
        reverse_loop (Z.shiftr inv 1)
                     (Z.lor (u8 (Z.shiftl r 1)) (Z.land inv 1))
                     (cnt - 1);
    | right _ := (r, cnt) }.
Proof.
  rewrite Z.shiftr_div_pow2 by lia.
  change (2 ^ 1) with 2.
  assert (inv / 2 < inv) by (apply Z.div_lt; lia).
  assert (0 <= inv / 2) by (apply Z.div_pos; lia).
  lia.
Qed.

(** [uint8_t reverse(uint8_t in)]: [r = in; cnt = 7;] the loop;
    [r <<= cnt; return r;]. *)
Definition reverse (inb : Z) : Z :=
  let '(r, cnt) := reverse_loop (Z.shiftr inb 1) inb 7 in
  u8 (Z.shiftl r cnt).

(** ** [lookup_digit] *)

(** A pointer converted to [char]: the low eight bits of the address
    are kept. *)
Definition char_of_pointer (p : Z) : Z := u8 p.

(** [char lookup_digit(uint8_t segments)].  The source writes
    [switch segments {], which a C compiler does not accept; it is read as
    [switch (segments) {].  Each [return] gives a string literal, ["0"]
    to ["9"], ["L"], and [""] in the [default] case, from a function
    declared [char]: what is returned is the pointer to the literal
    converted to [char].  [literal s] is the address at which the program
    holds the literal [s]. *)
Definition lookup_digit (literal : string -> Z) (segments : Z) : Z :=
  if segments =? 0x7D then char_of_pointer (literal "0"%string)
  else if segments =? 0x05 then char_of_pointer (literal "1"%string)
  else if segments =? 0x5B then char_of_pointer (literal "2"%string)
  else if segments =? 0x1F then char_of_pointer (literal "3"%string)
  else if segments =? 0x27 then char_of_pointer (literal "4"%string)
  else if segments =? 0x3E then char_of_pointer (literal "5"%string)
  else if segments =? 0x7E then char_of_pointer (literal "6"%string)
  else if segments =? 0x15 then char_of_pointer (literal "7"%string)
  else if segments =? 0x7F then char_of_pointer (literal "8"%string)
  else if segments =? 0x3F then char_of_pointer (literal "9"%string)
  else if segments =? 0x68 then char_of_pointer (literal "L"%string)
  else char_of_pointer (literal EmptyString).

(** ** The heap object and the accesses made to it *)

Inductive event : Type :=
| Input (i : Z)     (* [data[i]] evaluated *)
| Load (i : Z)      (* [packet->data[i]] read *)
| Store (i : Z).    (* [packet->data[i]] written *)

(** [mem] gives the byte at each offset from the pointer [packet]; only the
    offsets [0 <= off < block] belong to the allocation. *)
Record heap : Type := mkHeap {
  block : Z;
  mem : Z -> Z;
  log : list event }.

(** The ways a run stops before the final [return packet]: [return NULL],
    or a read of [data[i]] past the end of the caller's buffer. *)
Inductive exit : Type :=
| RetNull
| Overrun (i : Z).

Definition M (A : Type) : Type := heap -> (A + exit) * heap.

Definition ret {A} (a : A) : M A := fun h => (inl a, h).

Definition bind {A B} (m : M A) (k : A -> M B) : M B := fun h =>
  match m h with
  | (inl a, h') => k a h'
  | (inr e, h') => (inr e, h')
  end.

Definition stop {A} (e : exit) : M A := fun h => (inr e, h).

Notation "x <- m ;; k" := (bind m (fun x => k))
  (at level 61, m at next level, right associativity).
Notation "m ;; k" := (bind m (fun _ => k))
  (at level 61, right associativity).

Definition record (e : event) (h : heap) : heap :=
  {| block := block h; mem := mem h; log := log h ++ [e] |}.

Definition input (data : list Z) (i : Z) : M Z := fun h =>
  match nth_error data (Z.to_nat i) with
  | Some b => (inl b, record (Input i) h)
  | None => (inr (Overrun i), h)
  end.

Definition load (i : Z) : M Z := fun h =>
  (inl (mem h i), record (Load i) h).

Definition store (i v : Z) : M unit := fun h =>
  (inl tt,
   {| block := block h;
      mem := fun off => if off =? i then v else mem h off;
      log := log h ++ [Store i] |}).

(** [for (int i = lo; ...; i++) body] with [n] iterations left. *)
Fixpoint for_from (n : nat) (i : Z) (body : Z -> M unit) : M unit :=
  match n with
  | O => ret tt
  | S n' => body i ;; for_from n' (i + 1) body
  end.

(** [for (int i = 0; i < hi; i++) body] *)
Definition for_upto (hi : Z) (body : Z -> M unit) : M unit :=
  for_from (Z.to_nat hi) 0 body.

(** [calloc(nmemb, size)]: a block of [nmemb * size] zero bytes.  [beyond]
    is what the address space holds around the block; only the block is
    cleared.  The allocation is taken to succeed. *)
Definition calloc (beyond : Z -> Z) (nmemb size : Z) : heap :=
  {| block := nmemb * size;
     mem := fun off =>
       if (0 <=? off) && (off <? nmemb * size) then 0 else u8 (beyond off);
     log := [] |}.

Definition sizeof_uint8_t : Z := 1.

(** ** [parse_packet] *)

(** Body of the first loop: the sequence check, then the nibble [mask] is
    or-ed into [packet->data[i/2]]. *)
Definition merge_body (data : list Z) (i : Z) : M unit :=
  tag <- input data i ;;
  if negb (i + 1 =? Z.shiftr tag 4) then stop RetNull
  else
    b <- input data i ;;
    let mask := Z.land b 0x0F in
    let mask := if Z.rem i 2 =? 0 then u8 (Z.shiftl mask 4) else mask in
    old <- load (Z.quot i 2) ;;
    store (Z.quot i 2) (u8 (Z.lor old mask)).

Definition merge_step (data : list Z) : M unit :=
  for_upto PACKET_LENGTH (merge_body data).

(** Body of the [REVERSE_DATA] loop. *)
Definition reverse_body (i : Z) : M unit :=
  v <- load i ;;
  store i (reverse v).

Definition reverse_step : M unit :=
  for_upto PACKET_LENGTH reverse_body.

(** [multimeter_reading* parse_packet(uint8_t *data)].  [data] lists the
    bytes of the buffer that the pointer designates (the pointer itself
    carries no length) and [beyond] is the memory found around the block
    that [calloc] returns.  [inl tt] stands for [return packet]: the
    reading is then read in the final heap, from offset 0. *)
Definition parse_packet (beyond : Z -> Z) (data : list Z)
  : (unit + exit) * heap :=
  (merge_step data ;; reverse_step) (calloc beyond 1 sizeof_uint8_t).

(** The packet of [main]. *)
Definition main_packet : list Z :=
  [0x17; 0x27; 0x3D; 0x47; 0x5D; 0x65; 0x7B;
   0x89; 0x97; 0xA0; 0xB8; 0xC0; 0xD4; 0xE1].

Definition zeroes : Z -> Z := fun _ => 0.

(** The segment table as the specification lists it. *)
Definition segment_table : list (Z * ascii) :=
  [(0x7D, "0"); (0x05, "1"); (0x5B, "2"); (0x1F, "3"); (0x27, "4");
   (0x3E, "5"); (0x7E, "6"); (0x15, "7"); (0x7F, "8"); (0x3F, "9");
   (0x68, "L")]%char.


Fixpoint table_find (t : list (Z * ascii)) (x : Z) : option ascii :=
  match t with
  | [] => None
  | (k, c) :: t' => if x =? k then Some c else table_find t' x
  end.

(** The code of a character. *)
Definition char_code (c : ascii) : Z := Z.of_nat (nat_of_ascii c).

(** Where a table of addresses puts a literal. *)
Fixpoint literal_at (t : list (string * Z)) (s : string) : Z :=
  match t with
  | [] => 0
  | (k, p) :: t' => if String.eqb s k then p else literal_at t' s
  end.

(** The twelve literals one after the other, each with its final zero
    byte, the first at [0x4020E0]. *)
Definition packed_literals : string -> Z :=
  literal_at
    [("0", 0x4020E0); ("1", 0x4020E2); ("2", 0x4020E4); ("3", 0x4020E6);
     ("4", 0x4020E8); ("5", 0x4020EA); ("6", 0x4020EC); ("7", 0x4020EE);
     ("8", 0x4020F0); ("9", 0x4020F2); ("L", 0x4020F4);
     ("", 0x4020F6)]%string.


(** ** Notions used to state the properties *)

(** The sequence check of byte [i]: does [data[i] >> 4] equal [i + 1]? *)
Definition tag_ok (data : list Z) (i : Z) : bool :=
  match nth_error data (Z.to_nat i) with
  | Some b => i + 1 =? Z.shiftr b 4
  | None => false
  end.

(** The low nibble of input byte [i]. *)
Definition payload (data : list Z) (i : Z) : Z :=
  Z.land (nth (Z.to_nat i) data 0) 0x0F.

(** The merged byte [k] of the wire format:
    [(payload(2k) << 4) | payload(2k+1)]. *)
Definition merged (data : list Z) (k : Z) : Z :=
  Z.lor (Z.shiftl (payload data (2 * k)) 4) (payload data (2 * k + 1)).

(** The value of [mask] when round [i] of the first loop stores. *)
Definition mask_of (data : list Z) (i : Z) : Z :=
  if Z.rem i 2 =? 0 then u8 (Z.shiftl (payload data i) 4)
  else payload data i.

(** The heap after a round of the first loop that passes the check. *)
Definition merge_post (data : list Z) (i : Z) (h : heap) : heap :=
  {| block := block h;
     mem := fun off =>
       if off =? Z.quot i 2
       then u8 (Z.lor (mem h (Z.quot i 2)) (mask_of data i))
       else mem h off;
     log := log h ++ [Input i; Input i; Load (Z.quot i 2); Store (Z.quot i 2)] |}.

(** The heap after a round of the second loop. *)
Definition reverse_post (i : Z) (h : heap) : heap :=
  {| block := block h;
     mem := fun off => if off =? i then reverse (mem h i) else mem h off;
     log := log h ++ [Load i; Store i] |}.

(** [n] rounds of a loop whose round [i] turns the heap [h] into
    [post i h]. *)
Fixpoint rounds (post : Z -> heap -> heap) (n : nat) (i : Z) (h : heap)
  : heap :=
  match n with
  | O => h
  | S n' => rounds post n' (i + 1) (post i h)
  end.

(** An access at offset [off] is inside the allocated block. *)
Definition in_block (h : heap) (off : Z) : bool :=
  (0 <=? off) && (off <? block h).

(** [m] is the first index whose sequence check fails. *)
Definition first_bad (data : list Z) (m : Z) : Prop :=
  0 <= m < PACKET_LENGTH /\
  tag_ok data m = false /\
  forall j, 0 <= j < m -> tag_ok data j = true.

(** The offsets of [packet->data] that a log reads or writes. *)
Definition accessed (l : list event) : list Z :=
  flat_map (fun e => match e with
                     | Input _ => []
                     | Load i | Store i => [i]
                     end) l.

(** The seven bytes of the reading. *)
Definition reading (h : heap) : list Z :=
  map (mem h) [0; 1; 2; 3; 4; 5; 6].

(** Memory around the block with every byte [0xFF], or every byte [0x01]. *)
Definition all_ff : Z -> Z := fun _ => 0xFF.
Definition all_01 : Z -> Z := fun _ => 0x01.

(** The packet of [main] with the tag of byte 0, or of byte 5, wrong. *)
Definition bad_at_0 : list Z :=
  [0x27; 0x27; 0x3D; 0x47; 0x5D; 0x65; 0x7B;
   0x89; 0x97; 0xA0; 0xB8; 0xC0; 0xD4; 0xE1].

Definition bad_at_5 : list Z :=
  [0x17; 0x27; 0x3D; 0x47; 0x5D; 0x75; 0x7B;
   0x89; 0x97; 0xA0; 0xB8; 0xC0; 0xD4; 0xE1].

(** The packet of [main] with a fifteenth byte, and without its last. *)
Definition long_packet : list Z := main_packet ++ [0xF0].
Definition short_packet : list Z := firstn 13 main_packet.

(** ** [print_bytes] *)

(** The digits of the [%X] conversion. *)
Definition hex_digit (n : Z) : ascii :=
  nth (Z.to_nat n)
      ["0"; "1"; "2"; "3"; "4"; "5"; "6"; "7";
       "8"; "9"; "A"; "B"; "C"; "D"; "E"; "F"]%char "?"%char.

Definition newline : ascii := "010"%char.

(** [printf("%02X ", b)] for a [uint8_t] [b]: two upper-case hexadecimal
    digits, the first one [0] for a value under 16, and a space. *)
Definition fmt_02X (b : Z) : list ascii :=
  [hex_digit (Z.shiftr b 4); hex_digit (Z.land b 0x0F); " "%char].

(** The loop of [print_bytes] with [n] iterations left, then the final
    [printf("\n")].  [out] is what has been written to the standard
    output; [Some i] in the result tells that [bytes[i]] was read past the
    end of the buffer, before anything else was written. *)
Fixpoint print_from (n : nat) (i : Z) (bytes : list Z) (out : list ascii)
  : list ascii * option Z :=
  match n with
  | O => (out ++ [newline], None)
  | S n' =>
      match nth_error bytes (Z.to_nat i) with
      | Some b => print_from n' (i + 1) bytes (out ++ fmt_02X b)
      | None => (out, Some i)
      end
  end.

(** [void print_bytes(uint8_t *bytes, int len)] *)
Definition print_bytes (bytes : list Z) (len : Z) : list ascii * option Z :=
  print_from (Z.to_nat len) 0 bytes [].

(** The text of a list of bytes: each one as [fmt_02X] writes it. *)
Fixpoint hex_line (l : list Z) : list ascii :=
  match l with
  | [] => []
  | b :: l' => fmt_02X b ++ hex_line l'
  end.

(** ** The bit-fields of [multimeter_reading] *)

(** The members of the anonymous struct, in the order of the declaration,
    each with its declared width in bits. *)
Definition reading_fields : list (string * Z) :=
  [("ac", 1); ("dc", 1); ("autorange", 1); ("connected", 1);
   ("negative", 1);
   ("first_digit", 7); ("first_dp", 1);
   ("second_digit", 7); ("second_dp", 1);
   ("third_digit", 7); ("third_dp", 1);
   ("fourth_digit", 7);
   ("micro", 1); ("nano", 1); ("kilo", 1); ("diode", 1); ("milli", 1);
   ("percent", 1); ("mega", 1); ("continuity", 1); ("capacitance", 1);
   ("ohm", 1); ("relative", 1); ("hold", 1); ("amp", 1); ("volts", 1);
   ("hertz", 1); ("low_battery", 1); ("minimum", 1); ("celsius", 1);
   ("fahrenheight", 1); ("maximum", 1)]%string.

Definition total_width (fields : list (string * Z)) : Z :=
  fold_right (fun f acc => snd f + acc) 0 fields.

(** The members that hold the segments of a digit. *)
Definition is_digit_field (f : string * Z) : bool :=
  existsb (String.eqb (fst f))
          ["first_digit"; "second_digit"; "third_digit";
           "fourth_digit"]%string.

(** ** Reasoning over all byte values *)

Definition all_bytes : list Z := map Z.of_nat (seq 0 256).

Lemma all_bytes_complete (x : Z) : 0 <= x < 256 -> In x all_bytes.
Proof.
  intros Hx. unfold all_bytes.
  rewrite <- (Z2Nat.id x) by lia.
  apply in_map, in_seq. lia.
Qed.

Lemma forall_bytes (P : Z -> bool) :
  forallb P all_bytes = true -> forall x, 0 <= x < 256 -> P x = true.
Proof.
  intros H x Hx. rewrite forallb_forall in H.
  apply H, all_bytes_complete, Hx.
Qed.

Lemma u8_range (z : Z) : 0 <= u8 z < 256.
Proof. unfold u8. apply Z.mod_pos_bound. lia. Qed.

Lemma u8_small (z : Z) : 0 <= z < 256 -> u8 z = z.
Proof. intros H. unfold u8. apply Z.mod_small, H. Qed.

(** ** Properties of [reverse] *)

Lemma reverse_range (x : Z) : 0 <= reverse x < 256.
Proof.
  unfold reverse. destruct (reverse_loop _ _ _) as [r cnt]. apply u8_range.
Qed.

(** [reverse] exchanges bit [i] with bit [7 - i]. *)
Lemma reverse_testbit (x i : Z) :
  0 <= x < 256 -> 0 <= i < 8 ->
  Z.testbit (reverse x) i = Z.testbit x (7 - i).
Proof.
  intros Hx Hi.
  assert (H : forallb (fun x =>
            forallb (fun i => Bool.eqb (Z.testbit (reverse x) i)
                                       (Z.testbit x (7 - i)))
                    [0; 1; 2; 3; 4; 5; 6; 7]) all_bytes = true)
    by (vm_compute; reflexivity).
  pose proof (forall_bytes _ H x Hx) as Hb. cbv beta in Hb.
  rewrite forallb_forall in Hb.
  apply Bool.eqb_prop, Hb.
  assert (Hc : i = 0 \/ i = 1 \/ i = 2 \/ i = 3 \/ i = 4 \/ i = 5
               \/ i = 6 \/ i = 7) by lia.
  simpl. intuition.
Qed.

(** C5: for every byte [x], [reverse (reverse x) = x]; and
    [reverse 0x00 = 0x00], [reverse 0xFF = 0xFF], [reverse 0x80 = 0x01],
    [reverse 0x01 = 0x80]. *)
Theorem reverse_involutive (x : Z) (Hx : 0 <= x < 256) :
  reverse (reverse x) = x /\
  reverse 0x00 = 0x00 /\ reverse 0xFF = 0xFF /\
  reverse 0x80 = 0x01 /\ reverse 0x01 = 0x80.
Proof.
  split; [| repeat split; vm_compute; reflexivity].
  apply Z.eqb_eq.
  apply (forall_bytes (fun x => reverse (reverse x) =? x)); [| exact Hx].
  vm_compute. reflexivity.
Qed.

Lemma reverse_involutive_witness :
  0 <= 0x2C < 256 /\ reverse (reverse 0x2C) = 0x2C.
Proof.
  split; [lia | apply (reverse_involutive 0x2C); lia].
Defined.

(** C6: [reverse] is total on the 256 byte values.  Each shift of a
    non-zero [in] gives a smaller value that is still not negative, eight
    shifts leave zero, the loop is left after at most 7 rounds ([cnt], which starts at 7 and
    loses one per round, is not negative at the exit, so the last shift
    [r <<= cnt] is defined), and the value returned is a byte. *)
Theorem reverse_total (x : Z) (Hx : 0 <= x < 256) :
  (0 < x -> 0 <= Z.shiftr x 1 < x) /\
  Z.shiftr x 8 = 0 /\
  (exists r cnt, reverse_loop (Z.shiftr x 1) x 7 = (r, cnt) /\
                 0 <= cnt <= 7 /\ reverse x = u8 (Z.shiftl r cnt)) /\
  0 <= reverse x < 256.
Proof.
  split; [| split; [| split; [| apply reverse_range]]].
  - intros Hpos. rewrite Z.shiftr_div_pow2 by lia. change (2 ^ 1) with 2.
    split; [apply Z.div_pos; lia | apply Z.div_lt; lia].
  - rewrite Z.shiftr_div_pow2 by lia. apply Z.div_small. exact Hx.
  - unfold reverse.
    assert (H : forallb (fun x =>
              let cnt := snd (reverse_loop (Z.shiftr x 1) x 7) in
              (0 <=? cnt) && (cnt <=? 7)) all_bytes = true)
      by (vm_compute; reflexivity).
    pose proof (forall_bytes _ H x Hx) as Hb. cbv beta zeta in Hb.
    destruct (reverse_loop (Z.shiftr x 1) x 7) as [r cnt].
    exists r, cnt. simpl in Hb.
    apply andb_true_iff in Hb. destruct Hb as [H0 H7].
    apply Z.leb_le in H0. apply Z.leb_le in H7.
    repeat split; assumption.
Qed.

Lemma reverse_total_witness :
  0 <= 0xB5 < 256 /\ 0 <= reverse 0xB5 < 256.
Proof.
  split; [lia | apply (reverse_total 0xB5); lia].
Defined.

(** ** Properties of [lookup_digit] *)

(** C7 fails on the code.  The table of the specification has ['0'] for
    [0x7D], but [lookup_digit] returns the literal ["0"] from a function
    declared [char]: the result is the low byte of the address of the
    literal, whatever that address is.  With the literals one after the
    other from [0x4020E0], [0x7D] gives [0xE0], not the code [0x30] of
    ['0'], [0x68] gives [0xF4], not the code of ['L'], and a value with no
    mapping gives [0xF6], the address byte of the empty literal, not an
    empty result. *)
Theorem lookup_digit_returns_address_byte :
  table_find segment_table 0x7D = Some "0"%char /\
  (forall literal, lookup_digit literal 0x7D = u8 (literal "0"%string)) /\
  lookup_digit packed_literals 0x7D = 0xE0 /\
  char_code "0" = 0x30 /\
  lookup_digit packed_literals 0x68 = 0xF4 /\
  char_code "L" = 0x4C /\
  table_find segment_table 0x00 = None /\
  lookup_digit packed_literals 0x00 = 0xF6.
Proof. repeat split. Qed.


(** ** The two loops of [parse_packet] *)

Lemma merge_body_ok (data : list Z) (i : Z) (h : heap) :
  tag_ok data i = true ->
  merge_body data i h = (inl tt, merge_post data i h).
Proof.
  unfold tag_ok, merge_body, merge_post, mask_of, payload, bind, input.
  destruct (nth_error data (Z.to_nat i)) as [b |] eqn:Hb; [| discriminate].
  intros Ht. rewrite Ht. simpl.
  rewrite (nth_error_nth _ _ 0 Hb).
  unfold load, store, record, bind. simpl.
  repeat rewrite <- app_assoc. reflexivity.
Qed.

Lemma merge_body_bad (data : list Z) (i : Z) (h : heap) :
  (Z.to_nat i < List.length data)%nat ->
  tag_ok data i = false ->
  merge_body data i h = (inr RetNull, record (Input i) h).
Proof.
  unfold tag_ok, merge_body, bind, input. intros Hlen.
  destruct (nth_error data (Z.to_nat i)) as [b |] eqn:Hb.
  - intros Ht. rewrite Ht. reflexivity.
  - apply nth_error_None in Hb. lia.
Qed.

Lemma merge_from_ok (data : list Z) (n : nat) :
  forall (i : Z) (h : heap),
    (forall j, i <= j < i + Z.of_nat n -> tag_ok data j = true) ->
    for_from n i (merge_body data) h
    = (inl tt, rounds (merge_post data) n i h).
Proof.
  induction n as [| n IH]; intros i h Hok; simpl.
  - reflexivity.
  - unfold bind at 1. rewrite merge_body_ok by (apply Hok; lia).
    apply IH. intros j Hj. apply Hok. lia.
Qed.

Lemma reverse_body_eq (i : Z) (h : heap) :
  reverse_body i h = (inl tt, reverse_post i h).
Proof.
  unfold reverse_body, reverse_post, bind, load, store, record. simpl.
  rewrite <- app_assoc. reflexivity.
Qed.

Lemma reverse_from (n : nat) :
  forall (i : Z) (h : heap),
    for_from n i reverse_body h = (inl tt, rounds reverse_post n i h).
Proof.
  induction n as [| n IH]; intros i h; simpl.
  - reflexivity.
  - unfold bind at 1.
    rewrite reverse_body_eq.
    apply IH.
Qed.

(** The first loop on a buffer whose first bad tag is at index [m]: the
    rounds before [m] are done, [data[m]] is read once, and the function
    returns NULL. *)
Lemma merge_from_mismatch (data : list Z) (m : Z) (n : nat) :
  forall (i : Z) (h : heap),
    0 <= i <= m -> m < i + Z.of_nat n ->
    (Z.to_nat m < List.length data)%nat ->
    (forall j, i <= j < m -> tag_ok data j = true) ->
    tag_ok data m = false ->
    for_from n i (merge_body data) h
    = (inr RetNull,
       record (Input m) (rounds (merge_post data) (Z.to_nat (m - i)) i h)).
Proof.
  induction n as [| n IH]; intros i h Hi Hn Hlen Hok Hbad; [lia |].
  simpl. unfold bind at 1.
  destruct (Z.eq_dec i m) as [-> | Hne].
  - rewrite merge_body_bad by assumption.
    rewrite Z.sub_diag. reflexivity.
  - rewrite merge_body_ok by (apply Hok; lia).
    rewrite (IH (i + 1) (merge_post data i h)); try assumption; try lia.
    + replace (Z.to_nat (m - i)) with (S (Z.to_nat (m - (i + 1)))) by lia.
      reflexivity.
    + intros j Hj. apply Hok. lia.
Qed.

(** The first loop on a buffer that ends at index [m] with every tag
    before it right: [data[m]] is read past the end. *)
Lemma merge_from_overrun (data : list Z) (m : Z) (n : nat) :
  forall (i : Z) (h : heap),
    0 <= i <= m -> m < i + Z.of_nat n ->
    Z.to_nat m = List.length data ->
    (forall j, i <= j < m -> tag_ok data j = true) ->
    for_from n i (merge_body data) h
    = (inr (Overrun m), rounds (merge_post data) (Z.to_nat (m - i)) i h).
Proof.
  induction n as [| n IH]; intros i h Hi Hn Hlen Hok; [lia |].
  simpl. unfold bind at 1.
  destruct (Z.eq_dec i m) as [-> | Hne].
  - unfold merge_body, bind, input.
    replace (nth_error data (Z.to_nat m)) with (@None Z)
      by (symmetry; apply nth_error_None; lia).
    rewrite Z.sub_diag. reflexivity.
  - rewrite merge_body_ok by (apply Hok; lia).
    rewrite (IH (i + 1) (merge_post data i h)); try assumption; try lia.
    + replace (Z.to_nat (m - i)) with (S (Z.to_nat (m - (i + 1)))) by lia.
      reflexivity.
    + intros j Hj. apply Hok. lia.
Qed.

(** A loop only depends on its body at the indices it runs through. *)
Lemma for_from_ext (body body' : Z -> M unit) (n : nat) :
  forall (i : Z) (h : heap),
    (forall j h', i <= j < i + Z.of_nat n -> body j h' = body' j h') ->
    for_from n i body h = for_from n i body' h.
Proof.
  induction n as [| n IH]; intros i h Hext; simpl.
  - reflexivity.
  - unfold bind at 1 2. rewrite Hext by lia.
    destruct (body' i h) as [[[] | e] h1]; [| reflexivity].
    apply IH. intros j h' Hj. apply Hext. lia.
Qed.

(** The rounds of the first loop read [data[j]] for the [j] they run
    through only. *)
Lemma rounds_merge_inputs (data : list Z) (n : nat) :
  forall (i : Z) (h : heap) (j : Z),
    In (Input j) (log (rounds (merge_post data) n i h)) ->
    In (Input j) (log h) \/ i <= j < i + Z.of_nat n.
Proof.
  induction n as [| n IH]; intros i h j Hin; simpl in Hin.
  - left. exact Hin.
  - apply IH in Hin. destruct Hin as [Hin | Hj]; [| right; lia].
    simpl in Hin. apply in_app_or in Hin. destruct Hin as [Hin | Hin].
    + left. exact Hin.
    + right. simpl in Hin.
      destruct Hin as [E | [E | [E | [E | []]]]]; try discriminate E;
        injection E as <-; lia.
Qed.

(** ** Bytes and nibbles *)

Lemma payload_range (data : list Z) (i : Z) : 0 <= payload data i < 16.
Proof.
  unfold payload. change 0x0F with (Z.ones 4).
  rewrite Z.land_ones by lia. apply Z.mod_pos_bound. lia.
Qed.

Lemma lor_byte (a b : Z) :
  0 <= a < 256 -> 0 <= b < 256 -> 0 <= Z.lor a b < 256.
Proof.
  intros Ha Hb.
  assert (H0 : 0 <= Z.lor a b) by (apply Z.lor_nonneg; lia).
  split; [exact H0 |].
  assert (Hs : Z.shiftr (Z.lor a b) 8 = 0).
  { rewrite Z.shiftr_lor, !Z.shiftr_div_pow2 by lia.
    change (2 ^ 8) with 256. rewrite !Z.div_small by lia. reflexivity. }
  rewrite Z.shiftr_div_pow2 in Hs by lia. change (2 ^ 8) with 256 in Hs.
  pose proof (Z.div_mod (Z.lor a b) 256 ltac:(lia)) as Hdm.
  pose proof (Z.mod_pos_bound (Z.lor a b) 256 ltac:(lia)). lia.
Qed.

Lemma high_nibble_byte (p : Z) : 0 <= p < 16 -> u8 (Z.shiftl p 4) = Z.shiftl p 4.
Proof.
  intros Hp. apply u8_small. rewrite Z.shiftl_mul_pow2 by lia.
  change (2 ^ 4) with 16. lia.
Qed.

(** Two rounds of or-ing, as the first loop does them for output byte
    [k], give the merged byte or-ed into what the byte held before. *)
Lemma merge_pair (data : list Z) (k old : Z) :
  0 <= k -> 0 <= old < 256 ->
  u8 (Z.lor (u8 (Z.lor old (mask_of data (2 * k)))) (mask_of data (2 * k + 1)))
  = Z.lor old (merged data k).
Proof.
  intros Hk Hold. unfold mask_of, merged.
  pose proof (payload_range data (2 * k)) as H1.
  pose proof (payload_range data (2 * k + 1)) as H2.
  replace (Z.rem (2 * k) 2) with 0
    by (rewrite Z.rem_mod_nonneg by lia;
        rewrite Z.mul_comm, Z.mod_mul by lia; reflexivity).
  replace (Z.rem (2 * k + 1) 2) with 1
    by (rewrite Z.rem_mod_nonneg by lia;
        rewrite Z.add_comm, Z.mul_comm, Z.mod_add by lia; reflexivity).
  simpl (0 =? 0). simpl (1 =? 0). cbv iota.
  rewrite high_nibble_byte by exact H1.
  assert (Hh : 0 <= Z.shiftl (payload data (2 * k)) 4 < 256).
  { rewrite Z.shiftl_mul_pow2 by lia. change (2 ^ 4) with 16. lia. }
  rewrite (u8_small (Z.lor old _)) by (apply lor_byte; assumption).
  rewrite u8_small by (apply lor_byte; [apply lor_byte; assumption | lia]).
  rewrite Z.lor_assoc. reflexivity.
Qed.

Lemma calloc_byte (beyond : Z -> Z) (nmemb size off : Z) :
  0 <= mem (calloc beyond nmemb size) off < 256.
Proof.
  simpl. destruct ((0 <=? off) && (off <? nmemb * size)).
  - lia.
  - apply u8_range.
Qed.

(** ** The result of [parse_packet] *)

Lemma parse_packet_ok (beyond : Z -> Z) (data : list Z) :
  (forall j, 0 <= j < PACKET_LENGTH -> tag_ok data j = true) ->
  parse_packet beyond data
  = (inl tt,
     rounds reverse_post 14 0
       (rounds (merge_post data) 14 0 (calloc beyond 1 sizeof_uint8_t))).
Proof.
  intros Hok. unfold parse_packet, merge_step, reverse_step, for_upto, bind.
  change (Z.to_nat PACKET_LENGTH) with 14%nat.
  rewrite merge_from_ok by (intros j Hj; apply Hok; unfold PACKET_LENGTH; lia).
  apply reverse_from.
Qed.

Lemma parse_packet_mismatch (beyond : Z -> Z) (data : list Z) (m : Z) :
  0 <= m < PACKET_LENGTH ->
  (Z.to_nat m < List.length data)%nat ->
  (forall j, 0 <= j < m -> tag_ok data j = true) ->
  tag_ok data m = false ->
  parse_packet beyond data
  = (inr RetNull,
     record (Input m)
       (rounds (merge_post data) (Z.to_nat m) 0
          (calloc beyond 1 sizeof_uint8_t))).
Proof.
  unfold PACKET_LENGTH. intros Hm Hlen Hok Hbad.
  unfold parse_packet, merge_step, reverse_step, for_upto, bind.
  change (Z.to_nat PACKET_LENGTH) with 14%nat.
  rewrite (merge_from_mismatch data m) by (assumption || lia).
  rewrite Z.sub_0_r. reflexivity.
Qed.

(** The seven data bytes after the two loops, from what they held when
    the first loop started. *)
Lemma loops_data (data : list Z) (h : heap) (k : Z) :
  0 <= k < DATA_LENGTH ->
  mem (rounds reverse_post 14 0 (rounds (merge_post data) 14 0 h)) k
  = reverse
      (u8 (Z.lor (u8 (Z.lor (mem h k) (mask_of data (2 * k))))
                 (mask_of data (2 * k + 1)))).
Proof.
  unfold DATA_LENGTH. intros Hk.
  assert (Hc : k = 0 \/ k = 1 \/ k = 2 \/ k = 3 \/ k = 4 \/ k = 5 \/ k = 6)
    by lia.
  repeat destruct Hc as [-> | Hc]; try subst k;
    cbn -[mask_of reverse u8 Z.lor]; reflexivity.
Qed.

(** What a returned reading holds: data byte [k] is the bit-reversal of
    the merged byte or-ed into the byte found at offset [k] when the block
    was allocated. *)
Lemma parse_packet_data (beyond : Z -> Z) (data : list Z) (k : Z) :
  (forall j, 0 <= j < PACKET_LENGTH -> tag_ok data j = true) ->
  0 <= k < DATA_LENGTH ->
  mem (snd (parse_packet beyond data)) k
  = reverse (Z.lor (mem (calloc beyond 1 sizeof_uint8_t) k) (merged data k)).
Proof.
  intros Hok Hk. rewrite parse_packet_ok by assumption.
  cbv [snd]. rewrite loops_data by assumption.
  rewrite merge_pair; [reflexivity | lia | apply calloc_byte].
Qed.

(** ** Sequence errors and lengths *)

Lemma mismatch_inputs (beyond : Z -> Z) (data : list Z) (m j : Z) :
  0 <= m ->
  In (Input j)
     (log (record (Input m)
             (rounds (merge_post data) (Z.to_nat m) 0
                (calloc beyond 1 sizeof_uint8_t)))) ->
  0 <= j <= m.
Proof.
  intros Hm Hin. simpl in Hin. apply in_app_or in Hin.
  destruct Hin as [Hin | Hin].
  - apply rounds_merge_inputs in Hin. simpl in Hin.
    destruct Hin as [[] | Hj]. lia.
  - simpl in Hin. destruct Hin as [E | []]. injection E as <-. lia.
Qed.

(** C2, amended: on a 14-byte input whose first wrong tag is at index [m],
    [parse_packet] returns NULL, so the caller gets no reading; NULL is the
    only error value and carries no index.  No byte of the input after
    index [m] is read. *)
Theorem parse_packet_sequence_mismatch
  (beyond : Z -> Z) (data : list Z) (m : Z)
  (Hlen : List.length data = 14%nat) (Hbad : first_bad data m) :
  fst (parse_packet beyond data) = inr RetNull /\
  forall j, In (Input j) (log (snd (parse_packet beyond data))) ->
            0 <= j <= m.
Proof.
  destruct Hbad as (Hm & Hbad & Hok).
  assert (Hin : (Z.to_nat m < List.length data)%nat)
    by (unfold PACKET_LENGTH in Hm; lia).
  rewrite (parse_packet_mismatch beyond data m Hm Hin Hok Hbad).
  split; [reflexivity |].
  intros j. cbv [snd]. apply mismatch_inputs. lia.
Qed.

Lemma bad_at_0_first : first_bad bad_at_0 0.
Proof.
  unfold first_bad, PACKET_LENGTH. repeat split; try lia; try reflexivity.
Qed.

Lemma bad_at_5_first : first_bad bad_at_5 5.
Proof.
  unfold first_bad, PACKET_LENGTH. repeat split; try lia; try reflexivity.
  intros j Hj.
  assert (Hc : j = 0 \/ j = 1 \/ j = 2 \/ j = 3 \/ j = 4) by lia.
  repeat destruct Hc as [-> | Hc]; try subst j; reflexivity.
Qed.

Lemma parse_packet_sequence_mismatch_witness :
  fst (parse_packet zeroes bad_at_5) = inr RetNull.
Proof.
  exact (proj1 (parse_packet_sequence_mismatch zeroes bad_at_5 5
                  eq_refl bad_at_5_first)).
Defined.

(** C2 as stated fails: a wrong tag at index 0 and a wrong tag at index 5
    give the same result, so the index cannot be read off the error. *)
Lemma null_carries_no_index :
  first_bad bad_at_0 0 /\ first_bad bad_at_5 5 /\
  fst (parse_packet zeroes bad_at_0) = fst (parse_packet zeroes bad_at_5) /\
  ~ (exists index_of : unit + exit -> Z,
        forall data m,
          List.length data = 14%nat -> first_bad data m ->
          index_of (fst (parse_packet zeroes data)) = m).
Proof.
  split; [apply bad_at_0_first |].
  split; [apply bad_at_5_first |].
  split; [reflexivity |].
  intros [index_of H].
  pose proof (H bad_at_0 0 eq_refl bad_at_0_first) as H0.
  pose proof (H bad_at_5 5 eq_refl bad_at_5_first) as H5.
  change (fst (parse_packet zeroes bad_at_5))
    with (fst (parse_packet zeroes bad_at_0)) in H5.
  rewrite H0 in H5. discriminate H5.
Qed.

Lemma merge_body_firstn (data : list Z) (j : Z) (h : heap) :
  0 <= j < PACKET_LENGTH ->
  merge_body (firstn 14 data) j h = merge_body data j h.
Proof.
  unfold PACKET_LENGTH. intros Hj. unfold merge_body, bind, input.
  rewrite nth_error_firstn.
  replace (Nat.ltb (Z.to_nat j) 14) with true
    by (symmetry; apply Nat.ltb_lt; lia).
  reflexivity.
Qed.

(** C3, amended: [parse_packet] makes no length check and has no
    InvalidLength result.  Of an input longer than 14 bytes it decodes the
    first 14 and looks at nothing else.  On an input shorter than 14 bytes
    with a wrong tag inside it, it returns NULL and reads no byte past the
    end of the input. *)
Theorem parse_packet_no_length_check
  (beyond : Z -> Z) (data : list Z)
  (Hlen : List.length data <> 14%nat) :
  ((14 < List.length data)%nat ->
   parse_packet beyond data = parse_packet beyond (firstn 14 data)) /\
  ((List.length data < 14)%nat ->
   forall m, first_bad data m -> (Z.to_nat m < List.length data)%nat ->
     fst (parse_packet beyond data) = inr RetNull /\
     forall j, In (Input j) (log (snd (parse_packet beyond data))) ->
               (Z.to_nat j < List.length data)%nat).
Proof.
  split.
  - intros _. unfold parse_packet, merge_step, for_upto, bind.
    rewrite (for_from_ext (merge_body (firstn 14 data)) (merge_body data));
      [reflexivity |].
    intros j h' Hj. apply merge_body_firstn.
    unfold PACKET_LENGTH in *. lia.
  - intros _ m (Hm & Hbad & Hok) Hin.
    rewrite (parse_packet_mismatch beyond data m Hm Hin Hok Hbad).
    split; [reflexivity |].
    intros j Hj. cbv [snd] in Hj. apply mismatch_inputs in Hj; lia.
Qed.

Lemma parse_packet_no_length_check_witness :
  List.length long_packet <> 14%nat /\
  parse_packet zeroes long_packet
  = parse_packet zeroes (firstn 14 long_packet).
Proof.
  assert (Hlen : List.length long_packet <> 14%nat) by (simpl; lia).
  split; [exact Hlen |].
  apply (proj1 (parse_packet_no_length_check zeroes long_packet Hlen)).
  simpl. lia.
Defined.

(** C3 as stated fails: a 15-byte input is decoded, not refused, and on a
    13-byte input with every tag right [data[13]] is read past the end. *)
Lemma length_is_not_checked :
  List.length long_packet = 15%nat /\
  fst (parse_packet zeroes long_packet) = inl tt /\
  List.length short_packet = 13%nat /\
  fst (parse_packet zeroes short_packet) = inr (Overrun 13).
Proof. repeat split. Qed.

(** ** The reading and the allocated block *)

(** When the six bytes after the allocated one happen to be zero, data
    byte [k] of a returned reading is the bit-reversal of the merged
    byte [k]. *)
Lemma parse_packet_data_zeroed (beyond : Z -> Z) (data : list Z) (k : Z) :
  (forall j, 0 <= j < PACKET_LENGTH -> tag_ok data j = true) ->
  (forall off, 1 <= off < DATA_LENGTH -> beyond off = 0) ->
  0 <= k < DATA_LENGTH ->
  fst (parse_packet beyond data) = inl tt /\
  mem (snd (parse_packet beyond data)) k = reverse (merged data k).
Proof.
  intros Hok Hz Hk. split.
  - rewrite parse_packet_ok by assumption. reflexivity.
  - rewrite parse_packet_data by assumption.
    replace (mem (calloc beyond 1 sizeof_uint8_t) k) with 0; [reflexivity |].
    unfold calloc, sizeof_uint8_t. cbn [mem]. change (1 * 1) with 1.
    destruct ((0 <=? k) && (k <? 1)) eqn:E.
    + reflexivity.
    + rewrite Hz; [reflexivity |].
      apply andb_false_iff in E.
      destruct E as [E | E]; [apply Z.leb_gt in E | apply Z.ltb_ge in E]; lia.
Qed.

(** C1 fails on the code.  [calloc(1, sizeof(uint8_t))] gives a block of
    one byte, so of the seven data bytes only byte 0 is allocated and
    cleared.  On the packet of [main], with [0xFF] in the memory after the
    block: the function returns the reading, the merged bytes are written
    at offsets 1 to 6 outside the block, byte 0 is the bit-reversal of the
    merged byte 0, and byte 1 is [0xFF] where the bit-reversal of the
    merged byte 1 is [0xEB]. *)
Theorem parse_packet_merges_outside_block :
  forallb (tag_ok main_packet) (map Z.of_nat (seq 0 14)) = true /\
  fst (parse_packet all_ff main_packet) = inl tt /\
  block (snd (parse_packet all_ff main_packet)) = 1 /\
  map (in_block (snd (parse_packet all_ff main_packet))) [0; 1; 2; 3; 4; 5; 6]
  = [true; false; false; false; false; false; false] /\
  mem (snd (parse_packet all_ff main_packet)) 0
  = reverse (merged main_packet 0) /\
  mem (snd (parse_packet all_ff main_packet)) 1 = 0xFF /\
  reverse (merged main_packet 1) = 0xEB.
Proof. repeat split; vm_compute; reflexivity. Qed.

(** C4 fails on the code.  The second loop runs [i] up to
    [PACKET_LENGTH - 1 = 13], not [DATA_LENGTH - 1 = 6]: from any heap it
    reads and writes [packet->data[0]] to [packet->data[13]] in turn, so it
    bit-reverses the seven bytes after the data buffer as well.  The
    offsets accessed by the whole run on the packet of [main] are listed:
    the merges, then the fourteen reversals. *)
Theorem reverse_step_runs_past_data (h : heap) :
  fst (reverse_step h) = inl tt /\
  log (snd (reverse_step h))
  = log h ++ flat_map (fun i => [Load i; Store i])
                      [0; 1; 2; 3; 4; 5; 6; 7; 8; 9; 10; 11; 12; 13] /\
  map (mem (snd (reverse_step h))) [7; 8; 9; 10; 11; 12; 13]
  = map (fun i => reverse (mem h i)) [7; 8; 9; 10; 11; 12; 13] /\
  accessed (log (snd (parse_packet zeroes main_packet)))
  = [0; 0; 0; 0; 1; 1; 1; 1; 2; 2; 2; 2; 3; 3; 3; 3; 4; 4; 4; 4;
     5; 5; 5; 5; 6; 6; 6; 6;
     0; 0; 1; 1; 2; 2; 3; 3; 4; 4; 5; 5; 6; 6;
     7; 7; 8; 8; 9; 9; 10; 10; 11; 11; 12; 12; 13; 13].
Proof.
  unfold reverse_step, for_upto.
  change (Z.to_nat PACKET_LENGTH) with 14%nat.
  rewrite reverse_from. cbv [fst snd].
  split; [reflexivity |].
  split; [simpl; repeat rewrite <- app_assoc; reflexivity |].
  split; [cbn -[reverse]; reflexivity | vm_compute; reflexivity].
Qed.

(** C8 fails on the code, by the one-byte allocation of C1.  On the packet
    of [main] every tag is right and the function returns the reading; the
    merged bytes are [77 D7 D5 B9 70 80 41] and their bit-reversals
    [EE EB AB 9D 0E 01 82].  The reading holds these when the memory after
    the block is zero, and [EE FF FF FF FF FF FF] when it holds [0xFF]. *)
Theorem main_packet_reading :
  forallb (tag_ok main_packet) (map Z.of_nat (seq 0 14)) = true /\
  (forall beyond, fst (parse_packet beyond main_packet) = inl tt) /\
  map (merged main_packet) [0; 1; 2; 3; 4; 5; 6]
  = [0x77; 0xD7; 0xD5; 0xB9; 0x70; 0x80; 0x41] /\
  map reverse (map (merged main_packet) [0; 1; 2; 3; 4; 5; 6])
  = [0xEE; 0xEB; 0xAB; 0x9D; 0x0E; 0x01; 0x82] /\
  reading (snd (parse_packet zeroes main_packet))
  = [0xEE; 0xEB; 0xAB; 0x9D; 0x0E; 0x01; 0x82] /\
  reading (snd (parse_packet all_ff main_packet))
  = [0xEE; 0xFF; 0xFF; 0xFF; 0xFF; 0xFF; 0xFF].
Proof. repeat split; try intros beyond; vm_compute; reflexivity. Qed.

(** C9 fails on the code, by the defects of C1 and C4.  The reading
    depends on what the memory after the one-byte block held: two runs on
    the packet of [main] give different readings.  And the run writes
    outside its block and outside the reading: the byte at offset 13,
    [0x01] before the call, is [0x80] after it. *)
Theorem parse_packet_depends_on_memory :
  reading (snd (parse_packet zeroes main_packet))
  <> reading (snd (parse_packet all_ff main_packet)) /\
  mem (calloc all_01 1 sizeof_uint8_t) 13 = 0x01 /\
  mem (snd (parse_packet all_01 main_packet)) 13 = 0x80 /\
  in_block (snd (parse_packet all_01 main_packet)) 13 = false.
Proof.
  split; [vm_compute; discriminate |].
  repeat split; vm_compute; reflexivity.
Qed.

(** ** More on [reverse] *)

Lemma byte_high_bits (a i : Z) : 0 <= a < 256 -> 8 <= i -> Z.testbit a i = false.
Proof.
  intros Ha Hi. destruct (Z.eq_dec a 0) as [-> | Hne].
  - apply Z.bits_0.
  - apply Z.bits_above_log2; [lia |].
    assert (Z.log2 a < 8) by (apply Z.log2_lt_pow2; [lia | change (2 ^ 8) with 256; lia]).
    lia.
Qed.

Lemma reverse_twice (x : Z) : 0 <= x < 256 -> reverse (reverse x) = x.
Proof.
  intros Hx. apply Z.eqb_eq.
  apply (forall_bytes (fun x => reverse (reverse x) =? x)); [| exact Hx].
  vm_compute. reflexivity.
Qed.

Lemma reverse_testbit_any (x i : Z) :
  0 <= x < 256 -> 0 <= i ->
  Z.testbit (reverse x) i = (i <? 8) && Z.testbit x (7 - i).
Proof.
  intros Hx Hi. destruct (Z.ltb_spec i 8) as [Hlt | Hge]; cbn [andb].
  - apply reverse_testbit; lia.
  - apply byte_high_bits; [apply reverse_range | exact Hge].
Qed.

(** X1: [reverse] is the reversal of the eight bits: for a byte [x], bit
    [i] of [reverse x] is bit [7 - i] of [x] when [i < 8], and is clear
    above. *)
Theorem reverse_bits (x i : Z) (Hx : 0 <= x < 256) (Hi : 0 <= i) :
  Z.testbit (reverse x) i = (i <? 8) && Z.testbit x (7 - i).
Proof.
  destruct (Z.ltb_spec i 8) as [Hlt | Hge]; cbn [andb].
  - apply reverse_testbit; lia.
  - apply byte_high_bits; [apply reverse_range | exact Hge].
Qed.

Lemma reverse_bits_witness :
  Z.testbit (reverse 0x40) 1 = (1 <? 8) && Z.testbit 0x40 (7 - 1).
Proof. apply (reverse_bits 0x40 1); lia. Defined.

Lemma byte_of_shiftr (z : Z) : 0 <= z -> Z.shiftr z 8 = 0 -> 0 <= z < 256.
Proof.
  intros Hz Hs. split; [exact Hz |].
  rewrite Z.shiftr_div_pow2 in Hs by lia. change (2 ^ 8) with 256 in Hs.
  pose proof (Z.div_mod z 256 ltac:(lia)) as Hdm.
  pose proof (Z.mod_pos_bound z 256 ltac:(lia)). lia.
Qed.

Lemma shiftr_byte (a : Z) : 0 <= a < 256 -> Z.shiftr a 8 = 0.
Proof.
  intros Ha. rewrite Z.shiftr_div_pow2 by lia. apply Z.div_small. exact Ha.
Qed.

Lemma land_byte (a b : Z) :
  0 <= a < 256 -> 0 <= b < 256 -> 0 <= Z.land a b < 256.
Proof.
  intros Ha Hb. apply byte_of_shiftr.
  - apply Z.land_nonneg. lia.
  - rewrite Z.shiftr_land, !shiftr_byte by assumption. reflexivity.
Qed.

Lemma lxor_byte (a b : Z) :
  0 <= a < 256 -> 0 <= b < 256 -> 0 <= Z.lxor a b < 256.
Proof.
  intros Ha Hb. apply byte_of_shiftr.
  - apply Z.lxor_nonneg. lia.
  - rewrite Z.shiftr_lxor, !shiftr_byte by assumption. reflexivity.
Qed.

(** X2: [reverse] goes through the bitwise operations on bytes: the
    reversal of [a | b], [a & b], [a ^ b] is the same operation on the
    reversals of [a] and [b]. *)
Theorem reverse_bitwise (a b : Z) (Ha : 0 <= a < 256) (Hb : 0 <= b < 256) :
  reverse (Z.lor a b) = Z.lor (reverse a) (reverse b) /\
  reverse (Z.land a b) = Z.land (reverse a) (reverse b) /\
  reverse (Z.lxor a b) = Z.lxor (reverse a) (reverse b).
Proof.
  pose proof (lor_byte a b Ha Hb) as Ho.
  pose proof (land_byte a b Ha Hb) as Hn.
  pose proof (lxor_byte a b Ha Hb) as Hx.
  repeat split; apply Z.bits_inj'; intros i Hi.
  - rewrite Z.lor_spec, !reverse_testbit_any, Z.lor_spec by assumption.
    destruct (i <? 8); reflexivity.
  - rewrite Z.land_spec, !reverse_testbit_any, Z.land_spec by assumption.
    destruct (i <? 8); reflexivity.
  - rewrite Z.lxor_spec, !reverse_testbit_any, Z.lxor_spec by assumption.
    destruct (i <? 8); reflexivity.
Qed.

Lemma reverse_bitwise_witness :
  reverse (Z.lor 0x12 0x84) = Z.lor (reverse 0x12) (reverse 0x84).
Proof. apply (reverse_bitwise 0x12 0x84); lia. Defined.



(** X4: the loop of [reverse] makes as many rounds as the position of the
    highest set bit of [in]: started with [cnt = 7], it is left with
    [cnt = 7 - log2 in] (7 for [in = 0], where the loop is not entered). *)
Theorem reverse_loop_rounds (x : Z) (Hx : 0 <= x < 256) :
  snd (reverse_loop (Z.shiftr x 1) x 7) = 7 - Z.log2 x.
Proof.
  apply Z.eqb_eq.
  apply (forall_bytes
           (fun x => snd (reverse_loop (Z.shiftr x 1) x 7) =? 7 - Z.log2 x));
    [| exact Hx].
  vm_compute. reflexivity.
Qed.

Lemma reverse_loop_rounds_witness :
  snd (reverse_loop (Z.shiftr 0x13 1) 0x13 7) = 7 - Z.log2 0x13.
Proof. apply (reverse_loop_rounds 0x13); lia. Defined.

(** ** The three ways [parse_packet] ends *)

Lemma tag_ok_in_range (data : list Z) (j : Z) :
  tag_ok data j = true -> (Z.to_nat j < List.length data)%nat.
Proof.
  unfold tag_ok. intros H. apply nth_error_Some.
  destruct (nth_error data (Z.to_nat j)); [discriminate | discriminate H].
Qed.

(** Either the first [n] tags are right or there is a first wrong one. *)
Lemma tags_search (data : list Z) (n : nat) :
  (forall j, 0 <= j < Z.of_nat n -> tag_ok data j = true) \/
  (exists m, 0 <= m < Z.of_nat n /\ tag_ok data m = false /\
             forall j, 0 <= j < m -> tag_ok data j = true).
Proof.
  induction n as [| n IH].
  - left. intros j Hj. lia.
  - destruct IH as [Hall | (m & Hm & Hbad & Hok)].
    + destruct (tag_ok data (Z.of_nat n)) eqn:Hn.
      * left. intros j Hj.
        destruct (Z.eq_dec j (Z.of_nat n)) as [-> | Hne];
          [exact Hn | apply Hall; lia].
      * right. exists (Z.of_nat n). repeat split; try lia; assumption.
    + right. exists m. repeat split; try lia; assumption.
Qed.

Lemma first_bad_length (data : list Z) (m : Z) :
  first_bad data m -> (Z.to_nat m <= List.length data)%nat.
Proof.
  intros (Hm & _ & Hok).
  destruct (Nat.le_gt_cases (Z.to_nat m) (List.length data)) as [H | H];
    [exact H |].
  assert (Hin : tag_ok data (Z.of_nat (List.length data)) = true)
    by (apply Hok; lia).
  apply tag_ok_in_range in Hin. lia.
Qed.

Lemma parse_packet_overrun (beyond : Z -> Z) (data : list Z) (m : Z) :
  0 <= m < PACKET_LENGTH ->
  Z.to_nat m = List.length data ->
  (forall j, 0 <= j < m -> tag_ok data j = true) ->
  parse_packet beyond data
  = (inr (Overrun m),
     rounds (merge_post data) (Z.to_nat m) 0
       (calloc beyond 1 sizeof_uint8_t)).
Proof.
  unfold PACKET_LENGTH. intros Hm Hlen Hok.
  unfold parse_packet, merge_step, reverse_step, for_upto, bind.
  change (Z.to_nat PACKET_LENGTH) with 14%nat.
  rewrite (merge_from_overrun data m) by (assumption || lia).
  rewrite Z.sub_0_r. reflexivity.
Qed.

Lemma parse_packet_cases (beyond : Z -> Z) (data : list Z) :
  ((forall j, 0 <= j < PACKET_LENGTH -> tag_ok data j = true) /\
   parse_packet beyond data
   = (inl tt,
      rounds reverse_post 14 0
        (rounds (merge_post data) 14 0 (calloc beyond 1 sizeof_uint8_t)))) \/
  (exists m, first_bad data m /\ (Z.to_nat m < List.length data)%nat /\
     parse_packet beyond data
     = (inr RetNull,
        record (Input m)
          (rounds (merge_post data) (Z.to_nat m) 0
             (calloc beyond 1 sizeof_uint8_t)))) \/
  (exists m, first_bad data m /\ Z.to_nat m = List.length data /\
     parse_packet beyond data
     = (inr (Overrun m),
        rounds (merge_post data) (Z.to_nat m) 0
          (calloc beyond 1 sizeof_uint8_t))).
Proof.
  destruct (tags_search data 14) as [Hall | (m & Hm & Hbad & Hok)].
  - left. split; [exact Hall | apply parse_packet_ok, Hall].
  - right.
    assert (Hm' : 0 <= m < PACKET_LENGTH) by (unfold PACKET_LENGTH; lia).
    assert (Hfb : first_bad data m)
      by (split; [exact Hm' | split; assumption]).
    pose proof (first_bad_length data m Hfb) as Hle.
    destruct (Nat.eq_dec (Z.to_nat m) (List.length data)) as [He | Hne].
    + right. exists m. split; [exact Hfb | split; [exact He |]].
      apply parse_packet_overrun; assumption.
    + left. exists m. split; [exact Hfb | split; [lia |]].
      apply parse_packet_mismatch; try assumption; lia.
Qed.

(** X5: [parse_packet] returns a reading exactly when each of the first
    14 bytes of the buffer carries its 1-based position in its high
    nibble; the payload nibbles and the memory around the block play no
    part. *)
Theorem parse_packet_accepts_iff (beyond : Z -> Z) (data : list Z) :
  fst (parse_packet beyond data) = inl tt <->
  (forall j, 0 <= j < PACKET_LENGTH -> tag_ok data j = true).
Proof.
  split.
  - intros Hret.
    destruct (parse_packet_cases beyond data)
      as [[Hall _] | [(m & _ & _ & E) | (m & _ & _ & E)]];
      [exact Hall | |]; rewrite E in Hret; discriminate Hret.
  - intros Hall. rewrite parse_packet_ok by exact Hall. reflexivity.
Qed.

(** X6: the two failures.  NULL is returned exactly when the first wrong
    tag is at an index inside the buffer.  [data[m]] is read past the end
    of the buffer exactly when the buffer has [m < 14] bytes and all their
    tags are right; an empty buffer is read at index 0. *)
Theorem parse_packet_failures (beyond : Z -> Z) (data : list Z) :
  (fst (parse_packet beyond data) = inr RetNull <->
   exists m, first_bad data m /\ (Z.to_nat m < List.length data)%nat) /\
  (forall m, fst (parse_packet beyond data) = inr (Overrun m) <->
     m = Z.of_nat (List.length data) /\ m < PACKET_LENGTH /\
     forall j, 0 <= j < m -> tag_ok data j = true) /\
  fst (parse_packet beyond []) = inr (Overrun 0).
Proof.
  split; [| split; [| reflexivity]].
  - split.
    + intros Hret.
      destruct (parse_packet_cases beyond data)
        as [[_ E] | [(m & Hfb & Hin & E) | (m & _ & _ & E)]].
      * rewrite E in Hret. discriminate Hret.
      * exists m. split; assumption.
      * rewrite E in Hret. discriminate Hret.
    + intros (m & (Hm & Hbad & Hok) & Hin).
      rewrite (parse_packet_mismatch beyond data m Hm Hin Hok Hbad).
      reflexivity.
  - intros m. split.
    + intros Hret.
      destruct (parse_packet_cases beyond data)
        as [[_ E] | [(m' & _ & _ & E) | (m' & (Hm & _ & Hok) & Hlen & E)]];
        rewrite E in Hret; try discriminate Hret.
      injection Hret as <-. split; [lia | split; [lia | exact Hok]].
    + intros (-> & Hm & Hok).
      rewrite (parse_packet_overrun beyond data (Z.of_nat (List.length data)));
        try assumption; [reflexivity | lia | lia].
Qed.

Lemma rounds_log_indep (post : Z -> heap -> heap) (n : nat) :
  (forall i h h', log h = log h' -> log (post i h) = log (post i h')) ->
  forall i h h', log h = log h' ->
                 log (rounds post n i h) = log (rounds post n i h').
Proof.
  intros Hpost. induction n as [| n IH]; intros i h h' E; simpl.
  - exact E.
  - apply IH, Hpost, E.
Qed.

Lemma merge_post_log (data : list Z) (i : Z) (h h' : heap) :
  log h = log h' -> log (merge_post data i h) = log (merge_post data i h').
Proof. intros E. simpl. rewrite E. reflexivity. Qed.

Lemma reverse_post_log (i : Z) (h h' : heap) :
  log h = log h' -> log (reverse_post i h) = log (reverse_post i h').
Proof. intros E. simpl. rewrite E. reflexivity. Qed.

(** X7: whether [parse_packet] returns the reading, NULL, or reads past
    the buffer, and the sequence of reads and writes it makes, depend on
    the input bytes only, not on what the memory around the block holds. *)
Theorem parse_packet_control_flow (beyond beyond' : Z -> Z) (data : list Z) :
  fst (parse_packet beyond data) = fst (parse_packet beyond' data) /\
  log (snd (parse_packet beyond data)) = log (snd (parse_packet beyond' data)).
Proof.
  destruct (parse_packet_cases beyond data)
    as [[Hall E] | [(m & (Hm & Hbad & Hok) & Hin & E)
                   | (m & (Hm & Hbad & Hok) & Hlen & E)]];
    rewrite E.
  - rewrite (parse_packet_ok beyond' data Hall). cbv [fst snd].
    split; [reflexivity |].
    apply rounds_log_indep; [apply reverse_post_log |].
    apply rounds_log_indep; [apply merge_post_log | reflexivity].
  - rewrite (parse_packet_mismatch beyond' data m Hm Hin Hok Hbad).
    cbv [fst snd]. split; [reflexivity |]. unfold record. cbn [log]. f_equal.
    apply rounds_log_indep; [apply merge_post_log | reflexivity].
  - rewrite (parse_packet_overrun beyond' data m Hm Hlen Hok).
    cbv [fst snd]. split; [reflexivity |].
    apply rounds_log_indep; [apply merge_post_log | reflexivity].
Qed.

(** ** What the reading and the memory around it hold *)

Lemma calloc_outside (beyond : Z -> Z) (off : Z) :
  off < 0 \/ 1 <= off ->
  mem (calloc beyond 1 sizeof_uint8_t) off = u8 (beyond off).
Proof.
  intros Hoff. unfold calloc, sizeof_uint8_t. cbn [mem]. change (1 * 1) with 1.
  destruct (Z.leb_spec 0 off); destruct (Z.ltb_spec off 1);
    cbn [andb]; try reflexivity; lia.
Qed.

(** X8: the reading of an accepted buffer, whatever the memory after the
    one allocated byte holds.  Byte 0 is the bit-reversal of the merged
    byte 0; byte [k], for [k] from 1 to 6, is the bit-reversal of the
    merged byte [k] or-ed with the byte that was at offset [k]. *)
Theorem parse_packet_reading_any (beyond : Z -> Z) (data : list Z)
  (Hok : forall j, 0 <= j < PACKET_LENGTH -> tag_ok data j = true) :
  mem (snd (parse_packet beyond data)) 0 = reverse (merged data 0) /\
  forall k, 1 <= k < DATA_LENGTH ->
    mem (snd (parse_packet beyond data)) k
    = reverse (Z.lor (u8 (beyond k)) (merged data k)).
Proof.
  split.
  - rewrite parse_packet_data by (assumption || (unfold DATA_LENGTH; lia)).
    change (mem (calloc beyond 1 sizeof_uint8_t) 0) with 0.
    rewrite Z.lor_0_l. reflexivity.
  - intros k Hk.
    rewrite parse_packet_data by (assumption || (unfold DATA_LENGTH in *; lia)).
    rewrite calloc_outside by lia. reflexivity.
Qed.

Lemma main_packet_tags :
  forall j, 0 <= j < PACKET_LENGTH -> tag_ok main_packet j = true.
Proof.
  unfold PACKET_LENGTH. intros j Hj.
  assert (Hc : j = 0 \/ j = 1 \/ j = 2 \/ j = 3 \/ j = 4 \/ j = 5 \/ j = 6
               \/ j = 7 \/ j = 8 \/ j = 9 \/ j = 10 \/ j = 11 \/ j = 12
               \/ j = 13) by lia.
  repeat destruct Hc as [-> | Hc]; try subst j; reflexivity.
Qed.

Lemma parse_packet_reading_any_witness :
  mem (snd (parse_packet all_ff main_packet)) 0
  = reverse (merged main_packet 0).
Proof.
  exact (proj1 (parse_packet_reading_any all_ff main_packet main_packet_tags)).
Defined.

(** X9: when the six bytes after the allocated one are zero, the reading
    of an accepted buffer is the seven merged bytes, each bit-reversed. *)
Theorem parse_packet_reading_zeroed (beyond : Z -> Z) (data : list Z)
  (Hok : forall j, 0 <= j < PACKET_LENGTH -> tag_ok data j = true)
  (Hz : forall off, 1 <= off < DATA_LENGTH -> beyond off = 0) :
  reading (snd (parse_packet beyond data))
  = map (fun k => reverse (merged data k)) [0; 1; 2; 3; 4; 5; 6].
Proof.
  assert (H : forall k, 0 <= k < 7 ->
            mem (snd (parse_packet beyond data)) k = reverse (merged data k))
    by (intros k Hk; apply (parse_packet_data_zeroed beyond data k Hok Hz);
        unfold DATA_LENGTH; lia).
  unfold reading. cbn [map]. rewrite !H by lia. reflexivity.
Qed.

Lemma parse_packet_reading_zeroed_witness :
  reading (snd (parse_packet zeroes main_packet))
  = map (fun k => reverse (merged main_packet k)) [0; 1; 2; 3; 4; 5; 6].
Proof.
  apply (parse_packet_reading_zeroed zeroes main_packet main_packet_tags).
  intros off _. reflexivity.
Defined.

Lemma loops_tail (data : list Z) (h : heap) (k : Z) :
  DATA_LENGTH <= k < PACKET_LENGTH ->
  mem (rounds reverse_post 14 0 (rounds (merge_post data) 14 0 h)) k
  = reverse (mem h k).
Proof.
  unfold DATA_LENGTH, PACKET_LENGTH. intros Hk.
  assert (Hc : k = 7 \/ k = 8 \/ k = 9 \/ k = 10 \/ k = 11 \/ k = 12
               \/ k = 13) by lia.
  repeat destruct Hc as [-> | Hc]; try subst k;
    cbn -[mask_of reverse u8 Z.lor]; reflexivity.
Qed.

(** X10: on an accepted buffer the second loop also bit-reverses, in
    place, the seven bytes that follow the reading: after the call the
    byte at offset [k], for [k] from 7 to 13, is the bit-reversal of the
    byte that was there. *)
Theorem parse_packet_reverses_tail (beyond : Z -> Z) (data : list Z) (k : Z)
  (Hok : forall j, 0 <= j < PACKET_LENGTH -> tag_ok data j = true)
  (Hk : DATA_LENGTH <= k < PACKET_LENGTH) :
  mem (snd (parse_packet beyond data)) k = reverse (u8 (beyond k)).
Proof.
  rewrite parse_packet_ok by assumption. cbv [snd].
  rewrite loops_tail by assumption.
  rewrite calloc_outside by (unfold DATA_LENGTH in Hk; lia). reflexivity.
Qed.

Lemma parse_packet_reverses_tail_witness :
  mem (snd (parse_packet all_01 main_packet)) 9 = reverse (u8 (all_01 9)).
Proof.
  apply (parse_packet_reverses_tail all_01 main_packet 9 main_packet_tags).
  unfold DATA_LENGTH, PACKET_LENGTH. lia.
Defined.

Lemma rounds_merge_frame (data : list Z) (n : nat) :
  forall (i : Z) (h : heap) (off : Z),
    0 <= i -> off < 0 \/ i + Z.of_nat n <= off ->
    mem (rounds (merge_post data) n i h) off = mem h off.
Proof.
  induction n as [| n IH]; intros i h off Hi Hoff; simpl.
  - reflexivity.
  - rewrite IH by lia. cbn [merge_post mem].
    rewrite Z.quot_div_nonneg by lia.
    pose proof (Z.div_mod i 2 ltac:(lia)) as Hdm.
    pose proof (Z.mod_pos_bound i 2 ltac:(lia)) as Hmod.
    destruct (Z.eqb_spec off (i / 2)) as [E | _]; [lia | reflexivity].
Qed.

Lemma rounds_reverse_frame (n : nat) :
  forall (i : Z) (h : heap) (off : Z),
    off < i \/ i + Z.of_nat n <= off ->
    mem (rounds reverse_post n i h) off = mem h off.
Proof.
  induction n as [| n IH]; intros i h off Hoff; simpl.
  - reflexivity.
  - rewrite IH by lia. cbn [reverse_post mem].
    destruct (Z.eqb_spec off i) as [E | _]; [lia | reflexivity].
Qed.

(** X11: whatever the input and however the call ends, [parse_packet]
    leaves every byte before the block and every byte from offset 14 on
    as it found it: what it writes lies within offsets 0 to 13. *)
Theorem parse_packet_frame (beyond : Z -> Z) (data : list Z) (off : Z)
  (Hoff : off < 0 \/ PACKET_LENGTH <= off) :
  mem (snd (parse_packet beyond data)) off = u8 (beyond off).
Proof.
  unfold PACKET_LENGTH in Hoff.
  destruct (parse_packet_cases beyond data)
    as [[_ E] | [(m & (Hm & _) & _ & E) | (m & (Hm & _) & _ & E)]];
    rewrite E; cbv [snd]; unfold PACKET_LENGTH in *.
  - rewrite rounds_reverse_frame by (change (Z.of_nat 14) with 14; lia).
    rewrite rounds_merge_frame by (change (Z.of_nat 14) with 14; lia).
    apply calloc_outside. lia.
  - unfold record. cbn [mem].
    rewrite rounds_merge_frame by lia. apply calloc_outside. lia.
  - rewrite rounds_merge_frame by lia. apply calloc_outside. lia.
Qed.

Lemma parse_packet_frame_witness :
  mem (snd (parse_packet all_ff bad_at_5)) 14 = u8 (all_ff 14).
Proof.
  apply (parse_packet_frame all_ff bad_at_5 14).
  unfold PACKET_LENGTH. lia.
Defined.

Lemma accessed_app (l l' : list event) :
  accessed (l ++ l') = accessed l ++ accessed l'.
Proof. unfold accessed. apply flat_map_app. Qed.

Lemma rounds_merge_accessed (data : list Z) (n : nat) :
  forall (i : Z) (h : heap) (a : Z),
    0 <= i ->
    In a (accessed (log (rounds (merge_post data) n i h))) ->
    In a (accessed (log h)) \/ 0 <= 2 * a < i + Z.of_nat n.
Proof.
  induction n as [| n IH]; intros i h a Hi Hin; simpl in Hin.
  - left. exact Hin.
  - apply IH in Hin; [| lia]. destruct Hin as [Hin | Ha]; [| right; lia].
    cbn [merge_post log] in Hin. rewrite accessed_app in Hin.
    apply in_app_or in Hin. destruct Hin as [Hin | Hin]; [left; exact Hin |].
    right. rewrite Z.quot_div_nonneg in Hin by lia.
    pose proof (Z.div_mod i 2 ltac:(lia)) as Hdm.
    pose proof (Z.mod_pos_bound i 2 ltac:(lia)) as Hmod.
    simpl in Hin. destruct Hin as [E | [E | []]]; lia.
Qed.

(** X12: a call that fails does little to the heap.  When the first
    wrong tag (or the end of the buffer) is at index [m], no reading is
    returned, and the only offsets read or written are those of the pairs
    begun before [m]: every accessed offset [a] has [2 * a < m].  The
    second loop is not run, and with [m = 0] the heap is not touched. *)
Theorem parse_packet_failure_accesses
  (beyond : Z -> Z) (data : list Z) (m : Z) (Hbad : first_bad data m) :
  fst (parse_packet beyond data) <> inl tt /\
  forall a, In a (accessed (log (snd (parse_packet beyond data)))) ->
            0 <= 2 * a < m.
Proof.
  pose proof (first_bad_length data m Hbad) as Hle.
  destruct Hbad as (Hm & Hbad & Hok).
  assert (Hacc : forall a,
            In a (accessed (log (rounds (merge_post data) (Z.to_nat m) 0
                                   (calloc beyond 1 sizeof_uint8_t)))) ->
            0 <= 2 * a < m).
  { intros a Hin. apply rounds_merge_accessed in Hin; [| lia].
    destruct Hin as [[] | Ha]. lia. }
  destruct (Nat.eq_dec (Z.to_nat m) (List.length data)) as [He | Hne].
  - rewrite (parse_packet_overrun beyond data m Hm He Hok). cbv [fst snd].
    split; [discriminate | exact Hacc].
  - rewrite (parse_packet_mismatch beyond data m Hm ltac:(lia) Hok Hbad).
    cbv [fst snd]. split; [discriminate |].
    intros a Hin. unfold record in Hin. cbn [log] in Hin.
    rewrite accessed_app in Hin. apply in_app_or in Hin.
    destruct Hin as [Hin | []]. apply Hacc, Hin.
Qed.

Lemma parse_packet_failure_accesses_witness :
  fst (parse_packet zeroes bad_at_5) <> inl tt.
Proof.
  exact (proj1 (parse_packet_failure_accesses zeroes bad_at_5 5
                  bad_at_5_first)).
Defined.

Lemma merged_byte (data : list Z) (k : Z) : 0 <= merged data k < 256.
Proof.
  unfold merged.
  pose proof (payload_range data (2 * k)) as H1.
  pose proof (payload_range data (2 * k + 1)) as H2.
  apply lor_byte; [| lia].
  rewrite Z.shiftl_mul_pow2 by lia. change (2 ^ 4) with 16. lia.
Qed.

Lemma nibbles_split (p q : Z) :
  0 <= p < 16 -> 0 <= q < 16 ->
  Z.shiftr (Z.lor (Z.shiftl p 4) q) 4 = p /\
  Z.land (Z.lor (Z.shiftl p 4) q) 0x0F = q.
Proof.
  intros Hp Hq. split.
  - rewrite Z.shiftr_lor, Z.shiftr_shiftl_l by lia.
    change (4 - 4) with 0. rewrite Z.shiftl_0_r.
    rewrite (Z.shiftr_div_pow2 q) by lia. change (2 ^ 4) with 16.
    rewrite (Z.div_small q) by lia. apply Z.lor_0_r.
  - rewrite Z.land_lor_distr_l. change 0x0F with (Z.ones 4).
    rewrite !Z.land_ones by lia. change (2 ^ 4) with 16.
    rewrite Z.shiftl_mul_pow2 by lia. change (2 ^ 4) with 16.
    rewrite Z.mod_mul by lia. rewrite Z.mod_small by lia. reflexivity.
Qed.

(** A byte that passes the sequence check at index [i] is its tag
    [i + 1] over its payload nibble. *)
Lemma tag_ok_byte (data : list Z) (i : Z) :
  tag_ok data i = true ->
  nth (Z.to_nat i) data 0 = 16 * (i + 1) + payload data i.
Proof.
  unfold tag_ok, payload.
  destruct (nth_error data (Z.to_nat i)) as [b |] eqn:Hb; [| discriminate].
  rewrite (nth_error_nth _ _ 0 Hb). intros Ht. apply Z.eqb_eq in Ht.
  rewrite Z.shiftr_div_pow2 in Ht by lia. change (2 ^ 4) with 16 in Ht.
  change 0x0F with (Z.ones 4). rewrite Z.land_ones by lia.
  change (2 ^ 4) with 16. rewrite Ht.
  apply Z.div_mod. lia.
Qed.

(** X14: nothing of the input is lost.  When the six bytes after the
    allocated one are zero, the two input bytes of each pair are read back
    from the reading: reversing data byte [k] again gives the payload of
    input byte [2k] in its high nibble and that of input byte [2k + 1] in
    its low nibble, and each input byte is its tag over its payload. *)
Theorem parse_packet_recovers_input (beyond : Z -> Z) (data : list Z) (k : Z)
  (Hok : forall j, 0 <= j < PACKET_LENGTH -> tag_ok data j = true)
  (Hz : forall off, 1 <= off < DATA_LENGTH -> beyond off = 0)
  (Hk : 0 <= k < DATA_LENGTH) :
  nth (Z.to_nat (2 * k)) data 0
  = 16 * (2 * k + 1)
    + Z.shiftr (reverse (mem (snd (parse_packet beyond data)) k)) 4 /\
  nth (Z.to_nat (2 * k + 1)) data 0
  = 16 * (2 * k + 2)
    + Z.land (reverse (mem (snd (parse_packet beyond data)) k)) 0x0F.
Proof.
  destruct (parse_packet_data_zeroed beyond data k Hok Hz Hk) as [_ ->].
  rewrite reverse_twice by apply merged_byte.
  unfold DATA_LENGTH in Hk.
  destruct (nibbles_split (payload data (2 * k)) (payload data (2 * k + 1))
              (payload_range _ _) (payload_range _ _)) as [Hhi Hlo].
  unfold merged. rewrite Hhi, Hlo.
  rewrite !tag_ok_byte by (apply Hok; unfold PACKET_LENGTH; lia).
  split; f_equal; lia.
Qed.

Lemma parse_packet_recovers_input_witness :
  nth (Z.to_nat (2 * 3)) main_packet 0
  = 16 * (2 * 3 + 1)
    + Z.shiftr (reverse (mem (snd (parse_packet zeroes main_packet)) 3)) 4.
Proof.
  apply (parse_packet_recovers_input zeroes main_packet 3 main_packet_tags).
  - intros off _. reflexivity.
  - unfold DATA_LENGTH. lia.
Defined.

(** ** [print_bytes] *)

Lemma print_from_app (n : nat) :
  forall (rest pre : list Z) (i : Z) (out : list ascii),
    Z.of_nat (List.length pre) = i ->
    print_from n i (pre ++ rest) out
    = if (n <=? List.length rest)%nat
      then (out ++ hex_line (firstn n rest) ++ [newline], None)
      else (out ++ hex_line rest, Some (i + Z.of_nat (List.length rest))).
Proof.
  induction n as [| n IH]; intros rest pre i out Hi.
  - reflexivity.
  - cbn [print_from].
    replace (Z.to_nat i) with (List.length pre) by lia.
    destruct rest as [| b rest].
    + rewrite app_nil_r.
      replace (nth_error pre (List.length pre)) with (@None Z)
        by (symmetry; apply nth_error_None; lia).
      cbn. rewrite app_nil_r, Z.add_0_r. reflexivity.
    + rewrite nth_error_app2, Nat.sub_diag by lia. cbn [nth_error].
      replace (pre ++ b :: rest) with ((pre ++ [b]) ++ rest)
        by (rewrite <- app_assoc; reflexivity).
      rewrite IH by (rewrite length_app; cbn [List.length]; lia).
      cbn [List.length firstn hex_line].
      change (S n <=? S (List.length rest))%nat
        with (n <=? List.length rest)%nat.
      destruct (n <=? List.length rest)%nat.
      * rewrite <- !app_assoc. reflexivity.
      * rewrite <- !app_assoc. do 2 f_equal. lia.
Qed.

Lemma print_bytes_cases (bytes : list Z) (len : Z) :
  print_bytes bytes len
  = if (Z.to_nat len <=? List.length bytes)%nat
    then (hex_line (firstn (Z.to_nat len) bytes) ++ [newline], None)
    else (hex_line bytes, Some (Z.of_nat (List.length bytes))).
Proof.
  unfold print_bytes.
  exact (print_from_app (Z.to_nat len) bytes [] 0 [] eq_refl).
Qed.

Lemma hex_line_length (l : list Z) :
  List.length (hex_line l) = (3 * List.length l)%nat.
Proof.
  induction l as [| b l IH]; cbn [hex_line List.length fmt_02X app].
  - reflexivity.
  - rewrite IH. lia.
Qed.

(** X15: with [len <= 0] [print_bytes] writes the newline only and reads
    no byte, whatever the buffer, an empty one included. *)
Theorem print_bytes_no_bytes (bytes : list Z) (len : Z) (Hlen : len <= 0) :
  print_bytes bytes len = ([newline], None).
Proof.
  unfold print_bytes. replace (Z.to_nat len) with 0%nat by lia. reflexivity.
Qed.

Lemma print_bytes_no_bytes_witness : print_bytes [] (-3) = ([newline], None).
Proof. apply (print_bytes_no_bytes [] (-3)). lia. Defined.

(** X16: with [0 <= len] not above the size of the buffer, [print_bytes]
    writes the first [len] bytes, three characters each, then the
    newline, [3 * len + 1] characters in all, and reads nothing past
    byte [len - 1]: the bytes after it play no part. *)
Theorem print_bytes_prints (bytes : list Z) (len : Z)
  (Hlen : 0 <= len <= Z.of_nat (List.length bytes)) :
  print_bytes bytes len
  = (hex_line (firstn (Z.to_nat len) bytes) ++ [newline], None) /\
  Z.of_nat (List.length (fst (print_bytes bytes len))) = 3 * len + 1.
Proof.
  rewrite print_bytes_cases.
  replace (Z.to_nat len <=? List.length bytes)%nat with true
    by (symmetry; apply Nat.leb_le; lia).
  split; [reflexivity |]. cbv [fst].
  rewrite length_app, hex_line_length, length_firstn. cbn [List.length]. lia.
Qed.

Lemma print_bytes_prints_witness :
  print_bytes main_packet 2
  = (hex_line (firstn (Z.to_nat 2) main_packet) ++ [newline], None).
Proof.
  apply (print_bytes_prints main_packet 2). simpl. lia.
Defined.

(** X17: with [len] above the size of the buffer, [print_bytes] writes
    every byte of the buffer and then reads [bytes[n]], [n] the size of
    the buffer, past its end; the newline is not reached. *)
Theorem print_bytes_overrun (bytes : list Z) (len : Z)
  (Hlen : Z.of_nat (List.length bytes) < len) :
  print_bytes bytes len
  = (hex_line bytes, Some (Z.of_nat (List.length bytes))).
Proof.
  rewrite print_bytes_cases.
  replace (Z.to_nat len <=? List.length bytes)%nat with false
    by (symmetry; apply Nat.leb_gt; lia).
  reflexivity.
Qed.

Lemma print_bytes_overrun_witness :
  print_bytes [0x17; 0x27] 7
  = (hex_line [0x17; 0x27], Some (Z.of_nat (List.length [0x17; 0x27]))).
Proof. apply (print_bytes_overrun [0x17; 0x27] 7). simpl. lia. Defined.

Lemma fmt_02X_inj (b b' : Z) :
  0 <= b < 256 -> 0 <= b' < 256 -> fmt_02X b = fmt_02X b' -> b = b'.
Proof.
  intros Hb Hb' E. unfold fmt_02X in E. injection E as E1 E2.
  assert (H : forallb (fun b => forallb (fun b' =>
              implb (Ascii.eqb (hex_digit (Z.shiftr b 4))
                               (hex_digit (Z.shiftr b' 4))
                     && Ascii.eqb (hex_digit (Z.land b 0x0F))
                                  (hex_digit (Z.land b' 0x0F)))
                    (b =? b')) all_bytes) all_bytes = true)
    by (vm_compute; reflexivity).
  pose proof (forall_bytes _ H b Hb) as H1. cbv beta in H1.
  pose proof (forall_bytes _ H1 b' Hb') as H2. cbv beta in H2.
  rewrite E1, E2, !Ascii.eqb_refl in H2. cbn [andb implb] in H2.
  apply Z.eqb_eq, H2.
Qed.

Lemma hex_line_inj (l : list Z) :
  Forall (fun b => 0 <= b < 256) l ->
  forall l', Forall (fun b => 0 <= b < 256) l' ->
             hex_line l = hex_line l' -> l = l'.
Proof.
  induction 1 as [| b l Hb Hl IH]; intros l' Hl' E.
  - destruct l' as [| b' l']; [reflexivity | discriminate E].
  - destruct Hl' as [| b' l' Hb' Hl']; [discriminate E |].
    cbn [hex_line fmt_02X app] in E. injection E as E1 E2 E3.
    f_equal.
    + apply fmt_02X_inj; try assumption. unfold fmt_02X. congruence.
    + apply IH; assumption.
Qed.

(** X18: the text that [print_bytes] writes for a whole buffer of bytes
    tells the bytes: two buffers with the same text are the same. *)
Theorem print_bytes_injective (bytes bytes' : list Z)
  (Hb : Forall (fun b => 0 <= b < 256) bytes)
  (Hb' : Forall (fun b => 0 <= b < 256) bytes')
  (Heq : fst (print_bytes bytes (Z.of_nat (List.length bytes)))
         = fst (print_bytes bytes' (Z.of_nat (List.length bytes')))) :
  bytes = bytes'.
Proof.
  rewrite !print_bytes_cases, !Nat2Z.id, !Nat.leb_refl, !firstn_all in Heq.
  cbv [fst] in Heq. apply app_inv_tail in Heq.
  apply hex_line_inj with (l := bytes); assumption.
Qed.

Lemma print_bytes_injective_witness : [0xEE; 0x01] = [0xEE; 0x01].
Proof.
  apply (print_bytes_injective [0xEE; 0x01] [0xEE; 0x01]).
  - repeat constructor; lia.
  - repeat constructor; lia.
  - reflexivity.
Defined.

(** ** The fields of the reading *)

(** X19: the bit-fields declared in [multimeter_reading] take 56 bits in
    all, the eight bits of each of the [DATA_LENGTH] bytes of [data]: the
    four digit members are 7 bits wide and the 28 other members one bit
    wide. *)
Theorem reading_fields_width :
  total_width reading_fields = 8 * DATA_LENGTH /\
  map snd (filter is_digit_field reading_fields) = [7; 7; 7; 7] /\
  map snd (filter (fun f => negb (is_digit_field f)) reading_fields)
  = repeat 1 28.
Proof. repeat split. Qed.
